(** * aoti-rs: the C++ bridge [csrc/aoti.cc] over [AOTIModelPackageLoader]

    The bridge marshals tensor handles and string containers between a Rust
    caller and [torch::inductor::AOTIModelPackageLoader].  The wrapped class
    is only forward-declared in [csrc/aoti.h]; it enters this development as
    an interface ([Torch]) over which the seven bridge functions are
    written.  Pointers travel as [size_t] values; the free store is a finite
    map from addresses to the [at::Tensor] objects living there. *)

From Stdlib Require Import ZArith Lia.
From stdpp Require Import base option list strings gmap numbers relations.

Set Default Proof Using "Type".
Open Scope Z_scope.
Open Scope N_scope.
Open Scope nat_scope.

(** ** Outcome of a C++ call *)

(** A call returns, leaves by an exception, or has no defined behaviour
    (the bridge dereferences the integers it is given). *)
Inductive outcome (E A : Type) : Type :=
| Ret (a : A)
| Throw (e : E)
| Fault.
Arguments Ret {E A} a.
Arguments Throw {E A} e.
Arguments Fault {E A}.

(** A computation over a piece of mutable state [S].  The state that is
    returned with [Throw] is the one in which the exception was raised. *)
Definition M (E S A : Type) : Type := S → outcome E A * S.

Definition ret {E S A} (a : A) : M E S A := λ s, (Ret a, s).

Definition bind {E S A B} (m : M E S A) (k : A → M E S B) : M E S B :=
  λ s, match m s with
       | (Ret a, s') => k a s'
       | (Throw e, s') => (Throw e, s')
       | (Fault, s') => (Fault, s')
       end.

Definition gets {E S A} (f : S → A) : M E S A := λ s, (Ret (f s), s).

(** Run a computation on a component of the state. *)
Definition zoom {E S T A} (get : S → T) (set : T → S → S) (m : M E T A)
  : M E S A :=
  λ s, let '(o, t') := m (get s) in (o, set t' s).

Declare Scope cxx_scope.
Delimit Scope cxx_scope with cxx.
Notation "x <- c ;; k" := (bind c (λ x, k))
  (at level 100, c at next level, right associativity) : cxx_scope.
Open Scope cxx_scope.

(** A function applied to what a call returned. *)
Definition outcome_map {E A B} (f : A → B) (o : outcome E A) : outcome E B :=
  match o with Ret a => Ret (f a) | Throw e => Throw e | Fault => Fault end.

(** ** Integer types of the interface *)

(** [size_t] and [uintptr_t] have the width of a pointer, so converting
    between them and reinterpreting a pointer as [size_t] keep the value. *)
Abbreviation size_t := N (only parsing).

Definition static_cast_uintptr_t (p : size_t) : N := p.
Definition reinterpret_cast_size_t (a : N) : size_t := a.

(** [int8_t]: an integer of Z in [-128, 127]. *)
Definition int8_t (z : Z) : Prop := (-128 ≤ z ≤ 127)%Z.

(** [static_cast<c10::DeviceIndex>]: [c10::DeviceIndex] is a signed 8-bit
    integer; the conversion reduces modulo 2^8 into the signed range. *)
Definition static_cast_DeviceIndex (z : Z) : Z := ((z + 128) `mod` 256 - 128)%Z.

(** [std::string(rust::Str)] and [rust::String(std::string)] copy the text. *)
Definition std_string (s : string) : string := s.
Definition rust_String (s : string) : string := s.

(** ** The structs of [aoti.h] *)

Record TensorPtr := { TensorPtr_ptr : size_t }.
Record OwnedTensor := { OwnedTensor_ptr : size_t }.
Record MetadataEntry := { key : string; value : string }.

Global Instance TensorPtr_eq_dec : EqDecision TensorPtr.
Proof. solve_decision. Defined.
Global Instance OwnedTensor_eq_dec : EqDecision OwnedTensor.
Proof. solve_decision. Defined.
Global Instance MetadataEntry_eq_dec : EqDecision MetadataEntry.
Proof. solve_decision. Defined.

(** [std::unordered_map<std::string, std::string>]: its entries in the order
    in which the object is iterated. *)
Abbreviation unordered_map := (list (string * string)) (only parsing).

(** ** The wrapped library *)

(** What the bridge uses of libtorch and of the C++ runtime.  Methods of
    [AOTIModelPackageLoader] act on the state of the loader object; the
    constructor and the static method act on what lies outside the process
    (package files, devices).  [boxed_run] takes its vector by rvalue
    reference: its state is the vector handed over together with the loader,
    so what it leaves in the vector is visible.  [operator_new] gives the
    address of the storage obtained for a new [at::Tensor]; the storage is
    different from that of every live object. *)
Class Torch := {
  Tensor : Type;
  exception : Type;
  World : Type;
  AOTIModelPackageLoader : Type;
  AOTIModelPackageLoader_new :
    string → string → bool → size_t → Z → M exception World AOTIModelPackageLoader;
  run : list Tensor → M exception AOTIModelPackageLoader (list Tensor);
  boxed_run : M exception (list Tensor * AOTIModelPackageLoader) (list Tensor);
  get_metadata : M exception AOTIModelPackageLoader unordered_map;
  get_call_spec : M exception AOTIModelPackageLoader (list string);
  get_constant_fqns : M exception AOTIModelPackageLoader (list string);
  load_metadata_from_package : string → string → M exception World unordered_map;
  operator_new : gmap N Tensor → N;
  operator_new_fresh : ∀ h, h !! operator_new h = None;
}.

(** ** The bridge *)

Section bridge.
Context `{Torch}.

(** The memory a call of [loader_run] or [loader_boxed_run] can reach: the
    referents of its two reference parameters and the free store. *)
Record state := {
  inputs : list TensorPtr;
  loader : AOTIModelPackageLoader;
  heap : gmap N Tensor;
}.

Definition set_loader (l : AOTIModelPackageLoader) (s : state) : state :=
  {| inputs := inputs s; loader := l; heap := heap s |}.
Definition set_heap (h : gmap N Tensor) (s : state) : state :=
  {| inputs := inputs s; loader := loader s; heap := h |}.

(** Dereference of [tensor_ptr]: read the [at::Tensor] at an address. *)
Definition deref (a : N) : M exception (gmap N Tensor) Tensor :=
  λ h, match h !! a with
       | Some t => (Ret t, h)
       | None => (Fault, h)
       end.

(** [new at::Tensor(std::move(out))]. *)
Definition new_Tensor (out : Tensor) : M exception (gmap N Tensor) N :=
  λ h, let a := operator_new h in (Ret a, <[a := out]> h).

(** First loop: the tensor behind each handle is copied onto [cpp_inputs]. *)
Fixpoint copy_inputs (ts : list TensorPtr) (cpp_inputs : list Tensor)
  : M exception (gmap N Tensor) (list Tensor) :=
  match ts with
  | [] => ret cpp_inputs
  | t :: ts' =>
      tensor <- deref (static_cast_uintptr_t (TensorPtr_ptr t)) ;;
      copy_inputs ts' (cpp_inputs ++ [tensor])
  end.

(** Second loop: each output is moved to the free store and its address
    pushed on [result]. *)
Fixpoint move_outputs (outputs : list Tensor) (result : list OwnedTensor)
  : M exception (gmap N Tensor) (list OwnedTensor) :=
  match outputs with
  | [] => ret result
  | out :: outputs' =>
      heap_tensor <- new_Tensor out ;;
      move_outputs outputs'
        (result ++ [{| OwnedTensor_ptr := reinterpret_cast_size_t heap_tensor |}])
  end.

(** Loops of the string-valued functions. *)
Fixpoint push_entries (metadata : unordered_map) (result : list MetadataEntry)
  : list MetadataEntry :=
  match metadata with
  | [] => result
  | (k, v) :: metadata' =>
      push_entries metadata'
        (result ++ [{| key := rust_String k; value := rust_String v |}])
  end.

Fixpoint push_strings (specs : list string) (result : list string) : list string :=
  match specs with
  | [] => result
  | s :: specs' => push_strings specs' (result ++ [rust_String s])
  end.

Definition loader_new (model_package_path model_name : string)
    (run_single_threaded : bool) (num_runners : size_t) (device_index : Z)
  : M exception World AOTIModelPackageLoader :=
  AOTIModelPackageLoader_new
    (std_string model_package_path) (std_string model_name)
    run_single_threaded num_runners (static_cast_DeviceIndex device_index).

Definition loader_run : M exception state (list OwnedTensor) :=
  ts <- gets inputs ;;
  cpp_inputs <- zoom heap set_heap (copy_inputs ts []) ;;
  outputs <- zoom loader set_loader (run cpp_inputs) ;;
  zoom heap set_heap (move_outputs outputs []).

(** [loader.boxed_run(std::move(cpp_inputs))]: the local vector is handed
    over; what the callee leaves in it dies with the local. *)
Definition call_boxed_run (cpp_inputs : list Tensor)
  : M exception AOTIModelPackageLoader (list Tensor) :=
  λ l, let '(o, (_, l')) := boxed_run (cpp_inputs, l) in (o, l').

Definition loader_boxed_run : M exception state (list OwnedTensor) :=
  ts <- gets inputs ;;
  cpp_inputs <- zoom heap set_heap (copy_inputs ts []) ;;
  outputs <- zoom loader set_loader (call_boxed_run cpp_inputs) ;;
  zoom heap set_heap (move_outputs outputs []).

Definition loader_get_metadata
  : M exception AOTIModelPackageLoader (list MetadataEntry) :=
  metadata <- get_metadata ;;
  ret (push_entries metadata []).

Definition loader_get_call_spec : M exception AOTIModelPackageLoader (list string) :=
  specs <- get_call_spec ;;
  ret (push_strings specs []).

Definition loader_get_constant_fqns
  : M exception AOTIModelPackageLoader (list string) :=
  fqns <- get_constant_fqns ;;
  ret (push_strings fqns []).

Definition loader_load_metadata_from_package
    (model_package_path model_name : string)
  : M exception World (list MetadataEntry) :=
  metadata <- load_metadata_from_package
                (std_string model_package_path) (std_string model_name) ;;
  ret (push_entries metadata []).

End bridge.

(** ** Notions used to state the properties *)

Section notions.
Context `{Torch}.

(** The tensors behind a sequence of handles, when every handle designates
    a live [at::Tensor]. *)
Definition read_inputs (h : gmap N Tensor) (ts : list TensorPtr)
  : option (list Tensor) :=
  mapM (λ t, h !! static_cast_uintptr_t (TensorPtr_ptr t)) ts.

(** The addresses at which a sequence of tensors is placed, and the free
    store afterwards. *)
Fixpoint place (outputs : list Tensor) (h : gmap N Tensor)
  : list N * gmap N Tensor :=
  match outputs with
  | [] => ([], h)
  | out :: outputs' =>
      let a := operator_new h in
      let '(addrs, h') := place outputs' (<[a := out]> h) in
      (a :: addrs, h')
  end.

Definition own (a : N) : OwnedTensor :=
  {| OwnedTensor_ptr := reinterpret_cast_size_t a |}.

(** The tensor an owned handle designates in a free store. *)
Definition wrapped (h : gmap N Tensor) (o : OwnedTensor) : option Tensor :=
  h !! static_cast_uintptr_t (OwnedTensor_ptr o).

(** What a caller sees of an execution call: the tensors behind the handles
    it got back, or the way the call ended. *)
Definition observed (r : outcome exception (list OwnedTensor) * state)
  : outcome exception (list (option Tensor)) :=
  outcome_map (fmap (wrapped (heap r.2))) r.1.

(** The two execution entry points of the bridge. *)
Inductive entry := Run | BoxedRun.

Definition invoke (e : entry) : M exception state (list OwnedTensor) :=
  match e with
  | Run => loader_run
  | BoxedRun => loader_boxed_run
  end.

(** The call into the wrapped loader that an entry point makes. *)
Definition delegate (e : entry) (cpp_inputs : list Tensor)
  : M exception AOTIModelPackageLoader (list Tensor) :=
  match e with
  | Run => run cpp_inputs
  | BoxedRun => call_boxed_run cpp_inputs
  end.

(** A caller's session: the loader it is using, the free store, every
    owned handle the bridge has returned so far, and those among them the
    caller still owns (it has not destroyed their tensor). *)
Record session := {
  s_loader : AOTIModelPackageLoader;
  s_heap : gmap N Tensor;
  s_returned : list OwnedTensor;
  s_owned : list OwnedTensor;
}.

Definition enter (ts : list TensorPtr) (σ : session) : state :=
  {| inputs := ts; loader := s_loader σ; heap := s_heap σ |}.

(** One step of a session: an execution call that returns or throws, the
    caller creating a tensor of its own, the caller destroying a live
    tensor (an output it owns, or one of its own), or the caller turning to
    another loader.  The bridge itself never destroys an [at::Tensor]; the
    owner of a returned handle does, and the storage is then free to be
    handed out again by [operator_new]. *)
Inductive step : session → session → Prop :=
| step_returns e ts outs s' σ :
    invoke e (enter ts σ) = (Ret outs, s') →
    step σ {| s_loader := loader s'; s_heap := heap s';
              s_returned := s_returned σ ++ outs;
              s_owned := s_owned σ ++ outs |}
| step_throws e ts x s' σ :
    invoke e (enter ts σ) = (Throw x, s') →
    step σ {| s_loader := loader s'; s_heap := heap s';
              s_returned := s_returned σ; s_owned := s_owned σ |}
| step_caller a t σ :
    s_heap σ !! a = None →
    step σ {| s_loader := s_loader σ; s_heap := <[a := t]> (s_heap σ);
              s_returned := s_returned σ; s_owned := s_owned σ |}
| step_delete a t σ :
    s_heap σ !! a = Some t →
    step σ {| s_loader := s_loader σ; s_heap := delete a (s_heap σ);
              s_returned := s_returned σ;
              s_owned := filter (λ o, OwnedTensor_ptr o ≠ a) (s_owned σ) |}
| step_switch l σ :
    step σ {| s_loader := l; s_heap := s_heap σ;
              s_returned := s_returned σ; s_owned := s_owned σ |}.

(** Every handle the caller still owns designates a live tensor. *)
Definition owned_live (σ : session) : Prop :=
  Forall (λ o, is_Some (s_heap σ !! OwnedTensor_ptr o)) (s_owned σ).

End notions.

(** [f], built on the wrapped call [g], lets every exception of [g] through:
    same exception, state as [g] left it, nothing returned. *)
Definition surfaces {E S A B} (f : M E S B) (g : M E S A) : Prop :=
  ∀ s e s', g s = (Throw e, s') → f s = (Throw e, s').

(** An owned handle passed back to the bridge as an input: the caller hands
    over the pointer it owns. *)
Definition borrow (o : OwnedTensor) : TensorPtr :=
  {| TensorPtr_ptr := OwnedTensor_ptr o |}.

(** A metadata entry as the pair of the map it came from. *)
Definition entry_pair (e : MetadataEntry) : string * string := (key e, value e).

(** Metadata entries read as a mapping from key to value. *)
Definition entries_map (l : list MetadataEntry) : gmap string string :=
  list_to_map ((λ e, (key e, value e)) <$> l).

(** The same call made [n] times in a row. *)
Fixpoint repeat_call {E S A} (n : nat) (m : M E S A) (s : S)
  : list (outcome E A) * S :=
  match n with
  | O => ([], s)
  | S n' =>
      let '(o, s') := m s in
      let '(os, s'') := repeat_call n' m s' in
      (o :: os, s'')
  end.

(** ** A reference model of the wrapped loader *)

Module Reference.

(** Modelled from the spec: the errors of the wrapped runtime are absent
    from the sources; these are the five of the error taxonomy (section 7),
    [ExecutionError] carrying the diagnostic text of the runtime. *)
Inductive Error :=
| PackageNotFoundError
| PackageFormatError
| DeviceUnavailableError
| InvalidHandleError
| ExecutionError (diagnostic : string).

(** Modelled from the spec: where a runner executes (section 4.1: a runner
    is bound to [device_index], or to host execution). *)
Inductive Placement := Host | Device (index : Z).

(** Modelled from the spec: states of a handle after construction
    (section 4.3, [Constructed → Ready → Released]). *)
Inductive Lifecycle := Ready | Released.

Global Instance Error_eq_dec : EqDecision Error.
Proof. solve_decision. Defined.
Global Instance Placement_eq_dec : EqDecision Placement.
Proof. solve_decision. Defined.

(** Modelled from the spec: the index that means host-only execution; the
    spec names a sentinel without giving its value, [-1] is taken. *)
Definition host_only : Z := (-1)%Z.

Definition placement (device_index : Z) : Placement :=
  if decide (device_index = host_only) then Host else Device device_index.

Section model.
Context {T : Type}.

(** Modelled from the spec: a model package (sections 2 and 3), the
    artifact the wrapped loader reads: metadata, call spec, names of the
    constants, and the compiled entry point, which gives outputs or fails
    with a diagnostic. *)
Record ModelPackage := {
  pkg_metadata : list (string * string);
  pkg_call_spec : list string;
  pkg_constant_fqns : list string;
  pkg_entry : list T → string + list T;
}.

(** Modelled from the spec: a package is well formed when its metadata has
    unique keys (section 3) and its call spec describes the calling
    convention, so is not empty (sections 3 and 8). *)
Definition well_formed (p : ModelPackage) : bool :=
  bool_decide (NoDup (pkg_metadata p).*1) && bool_decide (pkg_call_spec p ≠ []).

(** Modelled from the spec: what lies outside the process: the artifacts by
    path and model name, the number of compute devices (indices from 0), and
    the number of runners allocated so far. *)
Record Env := {
  artifacts : gmap (string * string) ModelPackage;
  devices : nat;
  runners : nat;
}.

(** Modelled from the spec: the attributes of a ModelPackageHandle
    (section 3), the package it loaded, its pool of runners, its lifecycle
    state and the number of executions it has dispatched. *)
Record Handle := {
  source_path : string;
  selected_model : string;
  single_threaded : bool;
  runner_count : N;
  target_device : Z;
  package : ModelPackage;
  pool : list Placement;
  lifecycle : Lifecycle;
  dispatched : nat;
}.

Definition valid_package (w : Env) (path name : string) : Prop :=
  ∃ p, artifacts w !! (path, name) = Some p ∧ well_formed p = true.

(** Modelled from the spec: [device_index] references an available compute
    device or is the sentinel (section 4.1). *)
Definition device_admissible (w : Env) (device_index : Z) : bool :=
  bool_decide (device_index = host_only)
  || bool_decide (0 ≤ device_index < Z.of_nat (devices w))%Z.

Definition pool_size (run_single_threaded : bool) (num_runners : N) : nat :=
  if run_single_threaded then 1 else N.to_nat num_runners.

(** Modelled from the spec: [open] (section 4.1), the constructor of the
    wrapped loader.  The device is validated first, then the artifact is
    looked up and its structure validated; on success a pool of runners is
    allocated, each bound to the device or to the host.  A failure leaves
    nothing behind.  The spec asks for at least one runner when the loader
    is not single-threaded and names no failure for fewer: the pool has the
    size asked for. *)
Definition open (path name : string) (run_single_threaded : bool)
    (num_runners : N) (device_index : Z) : M Error Env Handle :=
  λ w,
    if device_admissible w device_index then
      match artifacts w !! (path, name) with
      | None => (Throw PackageNotFoundError, w)
      | Some p =>
          if well_formed p then
            let n := pool_size run_single_threaded num_runners in
            (Ret {| source_path := path; selected_model := name;
                    single_threaded := run_single_threaded;
                    runner_count := num_runners;
                    target_device := device_index;
                    package := p;
                    pool := replicate n (placement device_index);
                    lifecycle := Ready;
                    dispatched := 0 |},
             {| artifacts := artifacts w; devices := devices w;
                runners := runners w + n |})
          else (Throw PackageFormatError, w)
      end
    else (Throw DeviceUnavailableError, w).

Definition dispatch (l : Handle) : Handle :=
  {| source_path := source_path l; selected_model := selected_model l;
     single_threaded := single_threaded l; runner_count := runner_count l;
     target_device := target_device l; package := package l;
     pool := pool l; lifecycle := lifecycle l;
     dispatched := S (dispatched l) |}.

(** Modelled from the spec: [run] (section 4.3): valid in [Ready] only; the
    compiled entry point is executed on the inputs, a failure of it is an
    [ExecutionError] with the diagnostic text. *)
Definition execute (cpp_inputs : list T) : M Error Handle (list T) :=
  λ l,
    match lifecycle l with
    | Released => (Throw InvalidHandleError, l)
    | Ready =>
        match pkg_entry (package l) cpp_inputs with
        | inl diagnostic => (Throw (ExecutionError diagnostic), dispatch l)
        | inr outputs => (Ret outputs, dispatch l)
        end
    end.

(** Modelled from the spec: [boxed_run] (section 4.3), equivalent to [run]
    and consuming the inputs: the vector it was handed is left empty. *)
Definition execute_boxed : M Error (list T * Handle) (list T) :=
  λ '(cpp_inputs, l),
    match lifecycle l with
    | Released => (Throw InvalidHandleError, (cpp_inputs, l))
    | Ready =>
        match pkg_entry (package l) cpp_inputs with
        | inl diagnostic => (Throw (ExecutionError diagnostic), ([], dispatch l))
        | inr outputs => (Ret outputs, ([], dispatch l))
        end
    end.

(** Modelled from the spec: the introspection calls (section 4.2): reads of
    what was extracted at load time, valid on a live handle only. *)
Definition introspect {A} (f : ModelPackage → A) : M Error Handle A :=
  λ l,
    match lifecycle l with
    | Released => (Throw InvalidHandleError, l)
    | Ready => (Ret (f (package l)), l)
    end.

(** Modelled from the spec: the static variant (section 4.1): reads the
    metadata of the artifact, constructs no runner, consults no device. *)
Definition read_metadata (path name : string)
  : M Error Env (list (string * string)) :=
  λ w,
    match artifacts w !! (path, name) with
    | None => (Throw PackageNotFoundError, w)
    | Some p =>
        if well_formed p then (Ret (pkg_metadata p), w)
        else (Throw PackageFormatError, w)
    end.

(** The allocator of the model: an address that is not in use. *)
Definition next_address (h : gmap N T) : N := fresh (dom h).

End model.

Arguments ModelPackage T : clear implicits.
Arguments Env T : clear implicits.
Arguments Handle T : clear implicits.

(** Modelled from the spec: the wrapped runtime as the bridge sees it. *)
Definition torch (T : Type) : Torch :=
  {| Tensor := T;
     exception := Error;
     World := Env T;
     AOTIModelPackageLoader := Handle T;
     AOTIModelPackageLoader_new := open;
     run := execute;
     boxed_run := execute_boxed;
     get_metadata := introspect pkg_metadata;
     get_call_spec := introspect pkg_call_spec;
     get_constant_fqns := introspect pkg_constant_fqns;
     load_metadata_from_package := read_metadata;
     operator_new := next_address;
     operator_new_fresh := λ h, proj1 (not_elem_of_dom h _) (is_fresh (dom h)) |}.

End Reference.

(** ** A concrete package, used to exercise the statements *)

Module Example.
Import Reference.

(** Tensors are integers here; the model doubles each input and returns the
    results last first. *)
Definition forward : ModelPackage Z :=
  {| pkg_metadata := [("AOTI_DEVICE_KEY", "cpu"); ("version", "1")];
     pkg_call_spec := ["input_0"; "output_0"];
     pkg_constant_fqns := ["fc.weight"; "fc.bias"];
     pkg_entry := λ xs, inr (reverse (Z.mul 2 <$> xs)) |}.

(** A model whose entry point rejects every input. *)
Definition rejecting : ModelPackage Z :=
  {| pkg_metadata := [("AOTI_DEVICE_KEY", "cpu")];
     pkg_call_spec := ["input_0"; "output_0"];
     pkg_constant_fqns := [];
     pkg_entry := λ _, inl "shape mismatch" |}.

Definition world : Env Z :=
  {| artifacts := {[ ("resnet.pt2", "forward") := forward;
                     ("resnet.pt2", "rejecting") := rejecting ]};
     devices := 1;
     runners := 0 |}.

Definition ready (p : ModelPackage Z) : Handle Z :=
  {| source_path := "resnet.pt2"; selected_model := "forward";
     single_threaded := false; runner_count := 4; target_device := 0;
     package := p; pool := replicate 4 (Device 0);
     lifecycle := Ready; dispatched := 0 |}.

Definition released : Handle Z :=
  {| source_path := "resnet.pt2"; selected_model := "forward";
     single_threaded := false; runner_count := 4; target_device := 0;
     package := forward; pool := replicate 4 (Device 0);
     lifecycle := Released; dispatched := 0 |}.

(** Two tensors of the caller, at addresses 8 and 16. *)
Definition store : gmap N Z := {[ 8%N := 5%Z; 16%N := 7%Z ]}.

Definition handles : list TensorPtr :=
  [{| TensorPtr_ptr := 8 |}; {| TensorPtr_ptr := 16 |}].

Definition start (l : Handle Z) : @state (torch Z) :=
  @Build_state (torch Z) handles l store.

(** A session: a first call of [loader_run], the caller destroying the
    second output, then a call of [loader_boxed_run] on the same handles. *)
Definition opening : @session (torch Z) :=
  @Build_session (torch Z) (ready forward) store [] [].

Definition first_call : outcome Error (list OwnedTensor) * @state (torch Z) :=
  @loader_run (torch Z) (enter handles opening).

Definition first_outs : list OwnedTensor :=
  [{| OwnedTensor_ptr := 17 |}; {| OwnedTensor_ptr := 18 |}].

Definition after_first : @session (torch Z) :=
  @Build_session (torch Z) (loader first_call.2) (heap first_call.2)
    (s_returned opening ++ first_outs) (s_owned opening ++ first_outs).

Definition after_release : @session (torch Z) :=
  @Build_session (torch Z) (s_loader after_first)
    (delete 18%N (s_heap after_first)) (s_returned after_first)
    (filter (λ o, OwnedTensor_ptr o ≠ 18%N) (s_owned after_first)).

Definition second_call : outcome Error (list OwnedTensor) * @state (torch Z) :=
  @loader_boxed_run (torch Z) (enter handles after_release).

Definition second_outs : list OwnedTensor :=
  [{| OwnedTensor_ptr := 18 |}; {| OwnedTensor_ptr := 19 |}].

(** The first handle passed twice. *)
Definition repeated : list TensorPtr :=
  [{| TensorPtr_ptr := 8 |}; {| TensorPtr_ptr := 16 |}; {| TensorPtr_ptr := 8 |}].

(** A call with no input handle. *)
Definition idle : @state (torch Z) :=
  @Build_state (torch Z) [] (ready forward) store.

(** The same world without any compute device. *)
Definition hostless : Env Z :=
  {| artifacts := artifacts world; devices := 0; runners := 7 |}.

End Example.

(** * Properties

    ** What the two loops compute *)

Section loops.
Context `{Torch}.

Lemma set_heap_id (s : state) : set_heap (heap s) s = s.
Proof. by destruct s. Qed.

Lemma set_loader_id (s : state) : set_loader (loader s) s = s.
Proof. by destruct s. Qed.

Lemma copy_inputs_eq ts cpp_inputs h :
  copy_inputs ts cpp_inputs h =
  (match read_inputs h ts with
   | Some xs => Ret (cpp_inputs ++ xs)
   | None => Fault
   end, h).
Proof.
  revert cpp_inputs. induction ts as [|t ts IH]; intros acc; simpl.
  - by rewrite app_nil_r.
  - unfold bind, deref, read_inputs. simpl.
    destruct (h !! static_cast_uintptr_t (TensorPtr_ptr t)) as [x|]; simpl; [|done].
    rewrite IH. unfold read_inputs.
    destruct (mapM _ ts); simpl; [|done]. by rewrite <-app_assoc.
Qed.

Lemma move_outputs_eq outputs result h :
  move_outputs outputs result h =
  (Ret (result ++ (own <$> (place outputs h).1)), (place outputs h).2).
Proof.
  revert result h. induction outputs as [|out outputs IH]; intros acc h; simpl.
  - by rewrite app_nil_r.
  - unfold bind, new_Tensor. rewrite IH.
    destruct (place outputs _) as [addrs h']; simpl.
    by rewrite <-app_assoc.
Qed.

Lemma place_length outputs h : length (place outputs h).1 = length outputs.
Proof.
  revert h. induction outputs as [|out outputs IH]; intros h; simpl; [done|].
  specialize (IH (<[operator_new h := out]> h)).
  destruct (place outputs _); simpl in *. by rewrite IH.
Qed.

(** Placing tensors only extends the free store. *)
Lemma place_extends outputs h : h ⊆ (place outputs h).2.
Proof.
  revert h. induction outputs as [|out outputs IH]; intros h; simpl; [done|].
  specialize (IH (<[operator_new h := out]> h)).
  destruct (place outputs _) as [addrs h']; simpl in *.
  etrans; [|exact IH]. apply insert_subseteq, operator_new_fresh.
Qed.

(** No address handed out was in use before. *)
Lemma place_fresh outputs h :
  Forall (λ a, h !! a = None) (place outputs h).1.
Proof.
  revert h. induction outputs as [|out outputs IH]; intros h; simpl; [constructor|].
  specialize (IH (<[operator_new h := out]> h)).
  destruct (place outputs _) as [addrs h']; simpl in *.
  constructor; [apply operator_new_fresh|].
  eapply Forall_impl; [exact IH|]. intros a Ha; simpl in Ha.
  destruct (decide (operator_new h = a)) as [Heq|Hne].
  - subst a. by rewrite lookup_insert_eq in Ha.
  - by rewrite lookup_insert_ne in Ha.
Qed.

(** The addresses handed out are pairwise different. *)
Lemma place_NoDup outputs h : NoDup (place outputs h).1.
Proof.
  revert h. induction outputs as [|out outputs IH]; intros h; simpl; [constructor|].
  pose proof (place_fresh outputs (<[operator_new h := out]> h)) as Hf.
  specialize (IH (<[operator_new h := out]> h)).
  destruct (place outputs _) as [addrs h']; simpl in *.
  constructor; [|done].
  intros Hin. rewrite Forall_forall in Hf. specialize (Hf _ Hin).
  by rewrite lookup_insert_eq in Hf.
Qed.

(** The i-th address holds the i-th tensor. *)
Lemma place_lookup outputs h :
  ((place outputs h).2 !!.) <$> (place outputs h).1 = Some <$> outputs.
Proof.
  revert h. induction outputs as [|out outputs IH]; intros h; simpl; [done|].
  pose proof (place_extends outputs (<[operator_new h := out]> h)) as Hext.
  specialize (IH (<[operator_new h := out]> h)).
  destruct (place outputs _) as [addrs h']; simpl in *.
  f_equal; [|done].
  eapply lookup_weaken; [|exact Hext]. apply lookup_insert_eq.
Qed.

Lemma wrapped_own h a : wrapped h (own a) = h !! a.
Proof. done. Qed.

(** The bridge functions, loop by loop. *)
Lemma loader_run_eq (s : state) :
  loader_run s =
  match read_inputs (heap s) (inputs s) with
  | None => (Fault, s)
  | Some cpp_inputs =>
      match run cpp_inputs (loader s) with
      | (Ret outputs, l') =>
          let p := place outputs (heap s) in
          (Ret (own <$> p.1), set_heap p.2 (set_loader l' s))
      | (Throw e, l') => (Throw e, set_loader l' s)
      | (Fault, l') => (Fault, set_loader l' s)
      end
  end.
Proof.
  unfold loader_run, bind, gets, zoom. rewrite copy_inputs_eq.
  destruct (read_inputs _ _) as [cpp|]; simpl; rewrite set_heap_id; [|done].
  destruct (run cpp (loader s)) as [[outputs|e|] l']; simpl; try done.
  by rewrite move_outputs_eq.
Qed.

Lemma loader_boxed_run_eq (s : state) :
  loader_boxed_run s =
  match read_inputs (heap s) (inputs s) with
  | None => (Fault, s)
  | Some cpp_inputs =>
      match boxed_run (cpp_inputs, loader s) with
      | (Ret outputs, (_, l')) =>
          let p := place outputs (heap s) in
          (Ret (own <$> p.1), set_heap p.2 (set_loader l' s))
      | (Throw e, (_, l')) => (Throw e, set_loader l' s)
      | (Fault, (_, l')) => (Fault, set_loader l' s)
      end
  end.
Proof.
  unfold loader_boxed_run, bind, gets, zoom, call_boxed_run.
  rewrite copy_inputs_eq.
  destruct (read_inputs _ _) as [cpp|]; simpl; rewrite set_heap_id; [|done].
  destruct (boxed_run (cpp, loader s)) as [[outputs|e|] [rest l']]; simpl; try done.
  by rewrite move_outputs_eq.
Qed.

Lemma push_entries_eq metadata result :
  push_entries metadata result =
  result ++ ((λ kv, {| key := kv.1; value := kv.2 |}) <$> metadata).
Proof.
  revert result. induction metadata as [|[k v] metadata IH]; intros acc; simpl.
  - by rewrite app_nil_r.
  - rewrite IH. by rewrite <-app_assoc.
Qed.

Lemma push_strings_eq specs result : push_strings specs result = result ++ specs.
Proof.
  revert result. induction specs as [|s specs IH]; intros acc; simpl.
  - by rewrite app_nil_r.
  - rewrite IH. by rewrite <-app_assoc.
Qed.

End loops.

(** ** Execution calls *)

Section execution.
Context `{Torch}.

Lemma invoke_eq (e : entry) (s : state) :
  invoke e s =
  match read_inputs (heap s) (inputs s) with
  | None => (Fault, s)
  | Some cpp_inputs =>
      match delegate e cpp_inputs (loader s) with
      | (Ret outputs, l') =>
          let p := place outputs (heap s) in
          (Ret (own <$> p.1), set_heap p.2 (set_loader l' s))
      | (Throw x, l') => (Throw x, set_loader l' s)
      | (Fault, l') => (Fault, set_loader l' s)
      end
  end.
Proof.
  destruct e; simpl.
  - apply loader_run_eq.
  - rewrite loader_boxed_run_eq. unfold call_boxed_run.
    destruct (read_inputs _ _) as [cpp|]; [|done].
    by destruct (boxed_run (cpp, loader s)) as [[outputs|x|] [rest l']].
Qed.

(** An execution call never touches the caller's vector of handles and
    only adds to the free store. *)
Lemma invoke_frame (e : entry) (s : state) :
  inputs (invoke e s).2 = inputs s ∧ heap s ⊆ heap (invoke e s).2.
Proof.
  rewrite invoke_eq.
  destruct (read_inputs _ _) as [cpp|]; [|done].
  destruct (delegate e cpp (loader s)) as [[outputs|x|] l']; simpl; try done.
  split; [done|]. apply place_extends.
Qed.

(** When the first loop completes, every handle designated a live tensor. *)
Lemma read_inputs_live (h : gmap N Tensor) ts cpp_inputs :
  read_inputs h ts = Some cpp_inputs →
  Forall (λ t, is_Some (h !! TensorPtr_ptr t)) ts.
Proof.
  intros Hr. apply mapM_Some_1 in Hr.
  apply Forall_forall. intros t Ht.
  apply list_elem_of_lookup in Ht as [i Hi].
  destruct (Forall2_lookup_l _ _ _ _ _ Hr Hi) as (x & _ & Hx). by exists x.
Qed.

(** Every input handle designates after the call the object it designated
    before. *)
Lemma invoke_keeps_objects (e : entry) (s : state) t :
  t ∈ inputs s →
  heap (invoke e s).2 !! TensorPtr_ptr t = heap s !! TensorPtr_ptr t.
Proof.
  intros Ht. rewrite invoke_eq.
  destruct (read_inputs _ _) as [cpp|] eqn:Hr; [|done].
  destruct (delegate e cpp (loader s)) as [[outputs|x|] l']; simpl; try done.
  apply read_inputs_live in Hr. rewrite Forall_forall in Hr.
  destruct (Hr t Ht) as [x Hx]. rewrite Hx.
  eapply lookup_weaken; [exact Hx|apply place_extends].
Qed.

(** Every address handed out holds a tensor afterwards. *)
Lemma place_live outputs (h : gmap N Tensor) :
  Forall (λ a, is_Some ((place outputs h).2 !! a)) (place outputs h).1.
Proof.
  apply Forall_lookup. intros i a Ha.
  pose proof (place_lookup outputs h) as Hl.
  apply (f_equal (.!! i)) in Hl.
  rewrite !list_lookup_fmap, Ha in Hl. simpl in Hl.
  destruct (outputs !! i) as [x|]; simplify_eq/=. by exists x.
Qed.

(** What a returning call hands back. *)
Lemma invoke_returns (e : entry) (s s' : state) outs :
  invoke e s = (Ret outs, s') →
  ∃ cpp_inputs outputs l',
    read_inputs (heap s) (inputs s) = Some cpp_inputs ∧
    delegate e cpp_inputs (loader s) = (Ret outputs, l') ∧
    outs = own <$> (place outputs (heap s)).1 ∧
    s' = set_heap (place outputs (heap s)).2 (set_loader l' s).
Proof.
  rewrite invoke_eq.
  destruct (read_inputs _ _) as [cpp|]; [|done].
  destruct (delegate e cpp (loader s)) as [[outputs|x|] l'] eqn:Hd; simpl; try done.
  intros [= <- <-]. by exists cpp, outputs, l'.
Qed.

(** *** Sessions *)

Lemma step_owned_live (σ σ' : session) :
  step σ σ' → owned_live σ → owned_live σ'.
Proof.
  intros Hstep Hlive. unfold owned_live in *.
  destruct Hstep as [e ts outs s' σ1 Hc|e ts x s' σ1 Hc|a t σ1 Ha|a t σ1 Ha|l σ1];
    simpl in *; try done.
  - pose proof (invoke_frame e (enter ts σ1)) as [_ Hext].
    rewrite Hc in Hext. simpl in Hext.
    apply Forall_app. split.
    + eapply Forall_impl; [exact Hlive|]. intros o [x Hx]. exists x.
      by eapply lookup_weaken.
    + apply invoke_returns in Hc as (cpp & outputs & l' & _ & _ & -> & ->).
      simpl. apply Forall_fmap.
      eapply Forall_impl; [apply place_live|]. by intros a Ha.
  - pose proof (invoke_frame e (enter ts σ1)) as [_ Hext].
    rewrite Hc in Hext. simpl in Hext.
    eapply Forall_impl; [exact Hlive|]. intros o [y Hy]. exists y.
    by eapply lookup_weaken.
  - eapply Forall_impl; [exact Hlive|]. intros o [y Hy]. exists y.
    eapply lookup_weaken; [exact Hy|]. by apply insert_subseteq.
  - rewrite Forall_forall in Hlive. apply Forall_forall.
    intros o [Hne Ho]%list_elem_of_filter.
    rewrite lookup_delete_ne by done. by apply Hlive.
Qed.

Lemma session_owned_live (σ0 σ : session) :
  rtc step σ0 σ → owned_live σ0 → owned_live σ.
Proof. induction 1; eauto using step_owned_live. Qed.

(** What the caller owns was returned by a call of the session. *)
Lemma step_owned_returned (σ σ' : session) :
  step σ σ' → s_owned σ ⊆ s_returned σ → s_owned σ' ⊆ s_returned σ'.
Proof.
  intros Hstep Hsub.
  destruct Hstep as [e ts outs s' σ1 Hc|e ts x s' σ1 Hc|a t σ1 Ha|a t σ1 Ha|l σ1];
    simpl in *; try done.
  - intros o [Ho|Ho]%elem_of_app; apply elem_of_app; [left; by apply Hsub|by right].
  - intros o [_ Ho]%list_elem_of_filter. by apply Hsub.
Qed.

Lemma session_owned_returned (σ0 σ : session) :
  rtc step σ0 σ → s_owned σ0 ⊆ s_returned σ0 → s_owned σ ⊆ s_returned σ.
Proof. induction 1; eauto using step_owned_returned. Qed.

End execution.

Section claims.
Context `{Torch}.

(** C4.  When the wrapped loader returns a sequence of output tensors to
    [loader_run] or [loader_boxed_run], the bridge returns one owned handle
    per tensor, in the same order: the i-th handle designates, in the free
    store after the call, the i-th tensor the wrapped loader returned. *)
Theorem outputs_in_runtime_order (e : entry) (s : state) cpp_inputs outputs :
  read_inputs (heap s) (inputs s) = Some cpp_inputs →
  (delegate e cpp_inputs (loader s)).1 = Ret outputs →
  ∃ result s',
    invoke e s = (Ret result, s') ∧
    length result = length outputs ∧
    ∀ i o, result !! i = Some o → wrapped (heap s') o = outputs !! i.
Proof.
  intros Hin Hcall. rewrite invoke_eq, Hin.
  destruct (delegate e cpp_inputs (loader s)) as [o l'] eqn:Hd.
  simpl in Hcall; subst o. eexists _, _. split; [done|]. simpl. split.
  - by rewrite length_fmap, place_length.
  - intros i o Hi. apply list_lookup_fmap_Some in Hi as (a & -> & Ha).
    rewrite wrapped_own.
    pose proof (place_lookup outputs (heap s)) as Hl.
    apply (f_equal (.!! i)) in Hl.
    rewrite !list_lookup_fmap, Ha in Hl. simpl in Hl.
    destruct (outputs !! i); by simplify_eq/=.
Qed.

(** C5.  [loader_run] leaves the caller's sequence of input handles as it
    was, pointer for pointer, and every input handle designates after the
    call the tensor object it designated before: nothing the caller owns is
    taken, moved or destroyed. *)
Theorem run_borrows_inputs (s : state) :
  inputs (loader_run s).2 = inputs s ∧
  ∀ t, t ∈ inputs s →
    heap (loader_run s).2 !! TensorPtr_ptr t = heap s !! TensorPtr_ptr t.
Proof.
  split.
  - apply (invoke_frame Run).
  - intros t Ht. by apply (invoke_keeps_objects Run).
Qed.

(** C10.  [loader_boxed_run] leaves the caller's vector of input handles as
    it was: the vector handed to the wrapped [boxed_run] is the local copy,
    so whatever the callee does to it, every handle of the caller is the
    same after the call and designates the same tensor object. *)
Theorem boxed_run_keeps_caller_handles (s : state) :
  inputs (loader_boxed_run s).2 = inputs s ∧
  ∀ t, t ∈ inputs s →
    heap (loader_boxed_run s).2 !! TensorPtr_ptr t = heap s !! TensorPtr_ptr t.
Proof.
  split.
  - apply (invoke_frame BoxedRun).
  - intros t Ht. by apply (invoke_keeps_objects BoxedRun).
Qed.

(** C9.  Each of the seven bridge functions lets an exception of the call
    it makes into the wrapped runtime through unchanged: the bridge call
    ends with the same exception, in the state the failing call left, with
    no second attempt and no result. *)
Theorem errors_surface_unchanged :
  (∀ path name single num dev,
     surfaces (loader_new path name single num dev)
       (AOTIModelPackageLoader_new (std_string path) (std_string name)
          single num (static_cast_DeviceIndex dev))) ∧
  (∀ path name,
     surfaces (loader_load_metadata_from_package path name)
       (load_metadata_from_package (std_string path) (std_string name))) ∧
  surfaces loader_get_metadata get_metadata ∧
  surfaces loader_get_call_spec get_call_spec ∧
  surfaces loader_get_constant_fqns get_constant_fqns ∧
  (∀ e s cpp_inputs x l',
     read_inputs (heap s) (inputs s) = Some cpp_inputs →
     delegate e cpp_inputs (loader s) = (Throw x, l') →
     invoke e s = (Throw x, set_loader l' s) ∧ heap (invoke e s).2 = heap s).
Proof.
  split_and!.
  - by intros path name single num dev s x s' Hg.
  - intros path name s x s' Hg.
    unfold loader_load_metadata_from_package, bind. by rewrite Hg.
  - intros s x s' Hg. unfold loader_get_metadata, bind. by rewrite Hg.
  - intros s x s' Hg. unfold loader_get_call_spec, bind. by rewrite Hg.
  - intros s x s' Hg. unfold loader_get_constant_fqns, bind. by rewrite Hg.
  - intros e s cpp_inputs x l' Hin Hd. rewrite invoke_eq, Hin, Hd. done.
Qed.

(** C1 (as amended).  Along a session of execution calls, in which the
    caller may also destroy tensors, every handle that [loader_run] (or
    [loader_boxed_run]) returns is the address of a tensor object allocated
    by that call: the address was not in use before the call and holds a
    tensor after it, the handles of one call are pairwise different, and
    each differs from every input handle of the call and from every output
    handle that an earlier call returned and the caller has not destroyed
    since. *)
Theorem outputs_are_fresh (σ0 σ : session) (e : entry) ts outs s' :
  s_returned σ0 = [] →
  s_owned σ0 = [] →
  rtc step σ0 σ →
  invoke e (enter ts σ) = (Ret outs, s') →
  s_owned σ ⊆ s_returned σ ∧
  NoDup (OwnedTensor_ptr <$> outs) ∧
  Forall (λ o,
    s_heap σ !! OwnedTensor_ptr o = None ∧
    is_Some (heap s' !! OwnedTensor_ptr o) ∧
    (∀ t, t ∈ ts → TensorPtr_ptr t ≠ OwnedTensor_ptr o) ∧
    (∀ o', o' ∈ s_owned σ → OwnedTensor_ptr o' ≠ OwnedTensor_ptr o)) outs.
Proof.
  intros Hnil Hown Hsteps Hcall.
  assert (owned_live σ) as Hlive.
  { eapply session_owned_live; [exact Hsteps|].
    unfold owned_live. rewrite Hown. constructor. }
  split.
  { eapply session_owned_returned; [exact Hsteps|]. by rewrite Hown, Hnil. }
  apply invoke_returns in Hcall as (cpp & outputs & l' & Hin & _ & -> & ->).
  simpl in *. split.
  - rewrite <-list_fmap_compose.
    apply NoDup_fmap_2; [by intros a b Hab|apply place_NoDup].
  - apply Forall_fmap.
    pose proof (place_fresh outputs (s_heap σ)) as Hfresh.
    pose proof (place_live outputs (s_heap σ)) as Hafter.
    rewrite Forall_forall in Hfresh, Hafter.
    apply Forall_forall. intros a Ha. simpl.
    split_and!; [by apply Hfresh|by apply Hafter| |].
    + intros t Ht Heq. apply read_inputs_live in Hin.
      rewrite Forall_forall in Hin. destruct (Hin t Ht) as [x Hx].
      unfold reinterpret_cast_size_t in Heq. rewrite Heq, (Hfresh a Ha) in Hx.
      done.
    + intros o' Ho' Heq. unfold owned_live in Hlive.
      rewrite Forall_forall in Hlive. destruct (Hlive o' Ho') as [x Hx].
      unfold reinterpret_cast_size_t in Heq. rewrite Heq, (Hfresh a Ha) in Hx.
      done.
Qed.

End claims.

(** ** The string-valued functions *)

Section strings.
Context `{Torch}.

Lemma loader_get_metadata_eq (l : AOTIModelPackageLoader) :
  loader_get_metadata l =
  ((outcome_map (fmap (λ kv, {| key := kv.1; value := kv.2 |})) (get_metadata l).1),
   (get_metadata l).2).
Proof.
  unfold loader_get_metadata, bind, ret.
  destruct (get_metadata l) as [[metadata|x|] l']; simpl; try done.
  by rewrite push_entries_eq.
Qed.

Lemma loader_load_metadata_from_package_eq path name (w : World) :
  loader_load_metadata_from_package path name w =
  ((outcome_map (fmap (λ kv, {| key := kv.1; value := kv.2 |}))
      (load_metadata_from_package path name w).1),
   (load_metadata_from_package path name w).2).
Proof.
  unfold loader_load_metadata_from_package, bind, ret, std_string.
  destruct (load_metadata_from_package path name w) as [[metadata|x|] w'];
    simpl; try done.
  by rewrite push_entries_eq.
Qed.

Lemma loader_get_call_spec_eq (l : AOTIModelPackageLoader) :
  loader_get_call_spec l = get_call_spec l.
Proof.
  unfold loader_get_call_spec, bind, ret.
  destruct (get_call_spec l) as [[specs|x|] l']; simpl; try done.
  by rewrite push_strings_eq.
Qed.

Lemma loader_get_constant_fqns_eq (l : AOTIModelPackageLoader) :
  loader_get_constant_fqns l = get_constant_fqns l.
Proof.
  unfold loader_get_constant_fqns, bind, ret.
  destruct (get_constant_fqns l) as [[fqns|x|] l']; simpl; try done.
  by rewrite push_strings_eq.
Qed.

(** The entries pushed for a map are that map. *)
Lemma entries_map_push (metadata : list (string * string)) :
  entries_map (push_entries metadata []) = list_to_map metadata.
Proof.
  rewrite push_entries_eq. unfold entries_map. simpl.
  rewrite <-list_fmap_compose. f_equal.
  rewrite <-(list_fmap_id metadata) at 2.
  apply list_fmap_ext. by intros i [k v] _.
Qed.

(** The two entry points hand back the same tensors whenever the wrapped
    [boxed_run] ends the way the wrapped [run] does. *)
Lemma observed_boxed_run (s : state) :
  (∀ cpp_inputs l, (boxed_run (cpp_inputs, l)).1 = (run cpp_inputs l).1) →
  observed (loader_boxed_run s) = observed (loader_run s).
Proof.
  intros Heq. rewrite loader_boxed_run_eq, loader_run_eq.
  destruct (read_inputs _ _) as [cpp|]; [|done].
  specialize (Heq cpp (loader s)).
  destruct (boxed_run (cpp, loader s)) as [o1 [rest l1]].
  destruct (run cpp (loader s)) as [o2 l2]. simpl in Heq. subst o2.
  by destruct o1.
Qed.

Lemma static_cast_DeviceIndex_int8 (z : Z) :
  int8_t z → static_cast_DeviceIndex z = z.
Proof.
  unfold int8_t, static_cast_DeviceIndex. intros Hz.
  rewrite Z.mod_small by lia. lia.
Qed.

Lemma repeat_call_pure {E S A} (m : M E S A) (s : S) (o : outcome E A) n :
  m s = (o, s) → repeat_call n m s = (replicate n o, s).
Proof.
  intros Hm. induction n as [|n IH]; simpl; [done|]. by rewrite Hm, IH.
Qed.

End strings.

(** ** The bridge over the reference model *)

Section reference_claims.
Import Reference.
Context {T : Type}.

Local Abbreviation bridge_new := (@loader_new (torch T)).
Local Abbreviation bridge_run := (@loader_run (torch T)).
Local Abbreviation bridge_boxed_run := (@loader_boxed_run (torch T)).
Local Abbreviation bridge_get_metadata := (@loader_get_metadata (torch T)).
Local Abbreviation bridge_get_call_spec := (@loader_get_call_spec (torch T)).
Local Abbreviation bridge_load_metadata :=
  (@loader_load_metadata_from_package (torch T)).

Lemma execute_boxed_outcome (cpp_inputs : list T) (l : Handle T) :
  (execute_boxed (cpp_inputs, l)).1 = (execute cpp_inputs l).1.
Proof.
  unfold execute_boxed, execute.
  destruct (lifecycle l); [|done].
  by destruct (pkg_entry (package l) cpp_inputs).
Qed.

Lemma bridge_new_eq path name single num dev (w : Env T) :
  int8_t dev → bridge_new path name single num dev w = open path name single num dev w.
Proof.
  intros Hd. unfold loader_new, std_string. simpl.
  by rewrite static_cast_DeviceIndex_int8.
Qed.

Lemma open_ready path name single num dev (w w' : Env T) (l : Handle T) :
  open path name single num dev w = (Ret l, w') →
  device_admissible w dev = true ∧
  artifacts w !! (path, name) = Some (package l) ∧
  well_formed (package l) = true ∧
  lifecycle l = Ready ∧
  pool l = replicate (pool_size single num) (placement dev) ∧
  artifacts w' = artifacts w ∧ devices w' = devices w ∧
  runners w' = runners w + pool_size single num.
Proof.
  unfold open. destruct (device_admissible w dev); [|done].
  destruct (artifacts w !! (path, name)) as [p|]; [|done].
  destruct (well_formed p) eqn:Hwf; [|done].
  intros [= <- <-]. by simpl.
Qed.

Lemma open_succeeds path name single num dev (w : Env T) :
  valid_package w path name → device_admissible w dev = true →
  ∃ l w', open path name single num dev w = (Ret l, w').
Proof.
  intros (p & Hp & Hwf) Hd. unfold open. rewrite Hd, Hp, Hwf. by eexists _, _.
Qed.

(** C2.  On the same loader, free store and input handles, [loader_boxed_run]
    ends the way [loader_run] does, and when they return, the tensors behind
    the handles of the one are, position by position, the tensors behind the
    handles of the other. *)
Theorem boxed_run_agrees_with_run (s : @state (torch T)) :
  observed (bridge_boxed_run s) = observed (bridge_run s).
Proof. apply observed_boxed_run. apply execute_boxed_outcome. Qed.

(** C3.  For a valid package, [loader_load_metadata_from_package] succeeds
    whether or not a loader was opened before, and the mapping it returns is
    the mapping [loader_get_metadata] returns on a handle opened afterwards
    on the same path and model name. *)
Theorem static_metadata_matches_handle (w : Env T) path name :
  valid_package w path name →
  ∃ entries,
    bridge_load_metadata path name w = (Ret entries, w) ∧
    ∀ single num dev l w',
      bridge_new path name single num dev w = (Ret l, w') →
      ∃ entries',
        bridge_get_metadata l = (Ret entries', l) ∧
        entries_map entries' = entries_map entries.
Proof.
  intros (p & Hp & Hwf).
  exists (push_entries (pkg_metadata p) []). split.
  - unfold loader_load_metadata_from_package, bind, std_string. simpl.
    unfold read_metadata. by rewrite Hp, Hwf.
  - intros single num dev l w' Hopen.
    unfold loader_new, std_string in Hopen. simpl in Hopen.
    apply open_ready in Hopen as (_ & Hl & _ & Hready & _).
    rewrite Hp in Hl. injection Hl as ->.
    exists (push_entries (pkg_metadata (package l)) []). split; [|done].
    unfold loader_get_metadata, bind. simpl. unfold introspect.
    by rewrite Hready.
Qed.

(** C6.  [loader_load_metadata_from_package] is a read of the artifact and
    nothing else: it leaves the world as it found it (no runner is
    allocated, nothing is mutated), its result depends on the artifact alone
    (not on the devices present), and any number of calls in a row return
    the same result. *)
Theorem static_metadata_is_a_pure_read (w : Env T) path name :
  (bridge_load_metadata path name w).2 = w ∧
  (∀ w2 : Env T,
     artifacts w2 !! (path, name) = artifacts w !! (path, name) →
     (bridge_load_metadata path name w2).1 = (bridge_load_metadata path name w).1) ∧
  (∀ n, repeat_call n (bridge_load_metadata path name) w =
        (replicate n (bridge_load_metadata path name w).1, w)).
Proof.
  assert (∀ w1 : Env T, (bridge_load_metadata path name w1).2 = w1) as Hpure.
  { intros w1. rewrite loader_load_metadata_from_package_eq. simpl.
    unfold read_metadata. destruct (artifacts w1 !! (path, name)) as [p|]; [|done].
    by destruct (well_formed p). }
  split_and!.
  - apply Hpure.
  - intros w2 Heq. rewrite !loader_load_metadata_from_package_eq. simpl.
    unfold read_metadata. rewrite Heq.
    destruct (artifacts w !! (path, name)) as [p|]; [|done].
    by destruct (well_formed p).
  - intros n. apply repeat_call_pure.
    rewrite <-(Hpure w) at 3. by destruct (bridge_load_metadata path name w).
Qed.

(** C7.  [loader_new] with a device index that is neither an available
    compute device nor the host-only sentinel fails with
    [DeviceUnavailableError]; otherwise every runner it allocates is bound
    to that device, or to the host for the sentinel. *)
Theorem open_checks_device (w : Env T) path name single num dev :
  int8_t dev →
  (device_admissible w dev = false →
   bridge_new path name single num dev w = (Throw DeviceUnavailableError, w)) ∧
  (device_admissible w dev = true →
   ∀ l w', bridge_new path name single num dev w = (Ret l, w') →
     Forall (λ r, r = placement dev) (pool l) ∧
     length (pool l) = pool_size single num).
Proof.
  intros Hd. rewrite bridge_new_eq by done. split.
  - intros Hbad. unfold open. by rewrite Hbad.
  - intros _ l w' Hopen.
    apply open_ready in Hopen as (_ & _ & _ & _ & -> & _). split.
    + apply Forall_forall. by intros r ->%elem_of_replicate_inv.
    + apply length_replicate.
Qed.

(** C8.  Opening a valid package gives a handle on which
    [loader_get_call_spec] returns a non-empty sequence of strings, and any
    number of calls in a row return that same sequence and leave the handle
    as it was. *)
Theorem call_spec_nonempty_and_stable (w : Env T) path name single num dev :
  int8_t dev →
  valid_package w path name →
  device_admissible w dev = true →
  ∃ l w' spec,
    bridge_new path name single num dev w = (Ret l, w') ∧
    spec ≠ [] ∧
    ∀ n, repeat_call n bridge_get_call_spec l = (replicate n (Ret spec), l).
Proof.
  intros Hd Hvalid Hdev.
  destruct (open_succeeds path name single num dev w Hvalid Hdev) as (l & w' & Ho).
  exists l, w', (pkg_call_spec (package l)).
  rewrite bridge_new_eq by done. split; [done|].
  apply open_ready in Ho as (_ & _ & Hwf & Hready & _).
  split.
  - unfold well_formed in Hwf. apply andb_true_iff in Hwf as [_ Hne].
    by apply bool_decide_eq_true in Hne.
  - intros n. apply repeat_call_pure.
    rewrite loader_get_call_spec_eq. simpl. unfold introspect. by rewrite Hready.
Qed.

End reference_claims.

(** ** The statements on the example package *)

Section examples.
Import Reference Example.

Lemma example_valid : valid_package world "resnet.pt2" "forward".
Proof. exists forward. split; vm_compute; reflexivity. Qed.

Lemma int8_t_0 : int8_t 0.
Proof. unfold int8_t. lia. Qed.

Lemma int8_t_3 : int8_t 3.
Proof. unfold int8_t. lia. Qed.

Example run_doubles_and_reverses :
  observed (@loader_run (torch Z) (start (ready forward))) = Ret [Some 14; Some 10]%Z.
Proof. vm_compute. reflexivity. Qed.

(** The example session: one call, then the caller destroys the tensor of
    the second output. *)
Lemma example_session : rtc step opening after_release.
Proof.
  apply (rtc_l _ _ after_first).
  - apply (step_returns Run handles first_outs first_call.2 opening).
    reflexivity.
  - apply rtc_once.
    apply (@step_delete (torch Z) 18%N 10%Z after_first). reflexivity.
Qed.

Lemma outputs_are_fresh_witness :
  s_owned after_release ⊆ s_returned after_release ∧
  NoDup (OwnedTensor_ptr <$> second_outs) ∧
  Forall (λ o,
    s_heap after_release !! OwnedTensor_ptr o = None ∧
    is_Some (heap second_call.2 !! OwnedTensor_ptr o) ∧
    (∀ t, t ∈ handles → TensorPtr_ptr t ≠ OwnedTensor_ptr o) ∧
    (∀ o', o' ∈ s_owned after_release → OwnedTensor_ptr o' ≠ OwnedTensor_ptr o))
    second_outs.
Proof.
  apply (outputs_are_fresh opening after_release BoxedRun handles second_outs
           second_call.2).
  - reflexivity.
  - reflexivity.
  - exact example_session.
  - reflexivity.
Defined.

(** C1 as it was stated fails: in the example session the first call
    returns the handles 17 and 18, the caller destroys the tensor at 18, and
    the next call returns the handle 18 again, a pointer value that a
    previous call returned. *)
Lemma outputs_reuse_a_released_address :
  s_returned opening = [] ∧
  rtc step opening after_release ∧
  @invoke (torch Z) BoxedRun (enter handles after_release)
    = (Ret second_outs, second_call.2) ∧
  ∃ o o', o ∈ second_outs ∧ o' ∈ s_returned after_release ∧
          OwnedTensor_ptr o' = OwnedTensor_ptr o.
Proof.
  split_and!; [reflexivity|exact example_session|reflexivity|].
  exists {| OwnedTensor_ptr := 18 |}, {| OwnedTensor_ptr := 18 |}.
  split_and!; [apply list_elem_of_here| |reflexivity].
  apply list_elem_of_further, list_elem_of_here.
Qed.

Lemma outputs_in_runtime_order_witness :
  ∃ result s',
    invoke Run (start (ready forward)) = (Ret result, s') ∧
    length result = 2 ∧
    ∀ i o, result !! i = Some o → wrapped (heap s') o = [14; 10]%Z !! i.
Proof.
  apply (outputs_in_runtime_order Run (start (ready forward)) [5; 7]%Z [14; 10]%Z).
  - vm_compute. reflexivity.
  - vm_compute. reflexivity.
Defined.

Lemma run_borrows_inputs_witness :
  inputs (@loader_run (torch Z) (start (ready forward))).2 = handles ∧
  heap (@loader_run (torch Z) (start (ready forward))).2 !! 8%N = Some 5%Z.
Proof.
  split.
  - apply (proj1 (run_borrows_inputs (start (ready forward)))).
  - refine (eq_trans (proj2 (run_borrows_inputs (start (ready forward)))
                         {| TensorPtr_ptr := 8 |} _) _).
    + apply list_elem_of_here.
    + vm_compute. reflexivity.
Defined.

Lemma boxed_run_keeps_caller_handles_witness :
  inputs (@loader_boxed_run (torch Z) (start (ready forward))).2 = handles ∧
  heap (@loader_boxed_run (torch Z) (start (ready forward))).2 !! 16%N = Some 7%Z.
Proof.
  split.
  - apply (proj1 (boxed_run_keeps_caller_handles (start (ready forward)))).
  - refine (eq_trans (proj2 (boxed_run_keeps_caller_handles (start (ready forward)))
                         {| TensorPtr_ptr := 16 |} _) _).
    + apply list_elem_of_further, list_elem_of_here.
    + vm_compute. reflexivity.
Defined.

Lemma errors_surface_unchanged_witness :
  @loader_new (torch Z) "absent.pt2" "forward" false 4 0 world
    = (Throw PackageNotFoundError, world) ∧
  @loader_load_metadata_from_package (torch Z) "absent.pt2" "forward" world
    = (Throw PackageNotFoundError, world) ∧
  @loader_get_metadata (torch Z) released = (Throw InvalidHandleError, released) ∧
  @loader_get_call_spec (torch Z) released = (Throw InvalidHandleError, released) ∧
  @loader_get_constant_fqns (torch Z) released
    = (Throw InvalidHandleError, released) ∧
  @loader_run (torch Z) (start (ready rejecting))
    = (Throw (ExecutionError "shape mismatch"),
       @set_loader (torch Z) (dispatch (ready rejecting)) (start (ready rejecting))) ∧
  @loader_boxed_run (torch Z) (start released)
    = (Throw InvalidHandleError, @set_loader (torch Z) released (start released)).
Proof.
  destruct (@errors_surface_unchanged (torch Z))
    as (Hnew & Hstatic & Hmeta & Hspec & Hfqns & Hexec).
  split_and!.
  - apply Hnew. vm_compute. reflexivity.
  - apply Hstatic. vm_compute. reflexivity.
  - apply Hmeta. reflexivity.
  - apply Hspec. reflexivity.
  - apply Hfqns. reflexivity.
  - apply (Hexec Run (start (ready rejecting)) [5; 7]%Z).
    + vm_compute. reflexivity.
    + reflexivity.
  - apply (Hexec BoxedRun (start released) [5; 7]%Z).
    + vm_compute. reflexivity.
    + reflexivity.
Defined.

Lemma static_metadata_matches_handle_witness :
  ∃ entries,
    @loader_load_metadata_from_package (torch Z) "resnet.pt2" "forward" world
      = (Ret entries, world) ∧
    ∀ single num dev l w',
      @loader_new (torch Z) "resnet.pt2" "forward" single num dev world
        = (Ret l, w') →
      ∃ entries',
        @loader_get_metadata (torch Z) l = (Ret entries', l) ∧
        entries_map entries' = entries_map entries.
Proof.
  apply (static_metadata_matches_handle world "resnet.pt2" "forward").
  exists forward. split; vm_compute; reflexivity.
Defined.

Lemma static_metadata_is_a_pure_read_witness :
  (@loader_load_metadata_from_package (torch Z) "resnet.pt2" "forward" world).2
    = world ∧
  (@loader_load_metadata_from_package (torch Z) "resnet.pt2" "forward" hostless).1
    = (@loader_load_metadata_from_package (torch Z) "resnet.pt2" "forward" world).1 ∧
  repeat_call 3
    (@loader_load_metadata_from_package (torch Z) "resnet.pt2" "forward") world
    = (replicate 3
         (@loader_load_metadata_from_package (torch Z) "resnet.pt2" "forward"
            world).1, world).
Proof.
  destruct (static_metadata_is_a_pure_read world "resnet.pt2" "forward")
    as (Hsame & Hartifact & Hrepeat).
  split_and!.
  - exact Hsame.
  - apply Hartifact. reflexivity.
  - apply Hrepeat.
Defined.

Lemma open_checks_device_witness :
  @loader_new (torch Z) "resnet.pt2" "forward" false 4 3 world
    = (Throw DeviceUnavailableError, world) ∧
  ∀ l w',
    @loader_new (torch Z) "resnet.pt2" "forward" false 4 0 world = (Ret l, w') →
    Forall (λ r, r = placement 0) (pool l) ∧ length (pool l) = pool_size false 4.
Proof.
  split.
  - apply (proj1 (open_checks_device world "resnet.pt2" "forward" false 4 3
                    int8_t_3)).
    vm_compute. reflexivity.
  - apply (proj2 (open_checks_device world "resnet.pt2" "forward" false 4 0
                    int8_t_0)).
    vm_compute. reflexivity.
Defined.

Lemma call_spec_nonempty_and_stable_witness :
  ∃ l w' spec,
    @loader_new (torch Z) "resnet.pt2" "forward" false 4 0 world = (Ret l, w') ∧
    spec ≠ [] ∧
    ∀ n, repeat_call n (@loader_get_call_spec (torch Z)) l
         = (replicate n (Ret spec), l).
Proof.
  apply (call_spec_nonempty_and_stable world "resnet.pt2" "forward" false 4 0).
  - exact int8_t_0.
  - exact example_valid.
  - vm_compute. reflexivity.
Defined.

End examples.

(** ** Further properties of the bridge *)

Section further.
Context `{Torch}.

Lemma place_dom outputs (h : gmap N Tensor) :
  dom (place outputs h).2 = dom h ∪ list_to_set (place outputs h).1.
Proof.
  revert h. induction outputs as [|out outputs IH]; intros h; simpl.
  - change (dom h = dom h ∪ ∅). by rewrite (right_id_L ∅ (∪)).
  - specialize (IH (<[operator_new h := out]> h)).
    destruct (place outputs _) as [addrs h']; simpl in *.
    rewrite IH, dom_insert_L.
    rewrite (comm_L (∪) {[operator_new h]} (dom h)).
    symmetry. apply (assoc_L (∪)).
Qed.

Lemma place_size outputs (h : gmap N Tensor) :
  size (place outputs h).2 = size h + length outputs.
Proof.
  revert h. induction outputs as [|out outputs IH]; intros h; simpl; [lia|].
  specialize (IH (<[operator_new h := out]> h)).
  destruct (place outputs _) as [addrs h']; simpl in *.
  rewrite IH, map_size_insert_None by apply operator_new_fresh. lia.
Qed.

Lemma place_read outputs (h : gmap N Tensor) :
  Forall2 (λ a x, (place outputs h).2 !! a = Some x) (place outputs h).1 outputs.
Proof.
  apply Forall2_same_length_lookup. split; [apply place_length|].
  intros i a x Ha Hx.
  pose proof (place_lookup outputs h) as Hl.
  apply (f_equal (.!! i)) in Hl.
  rewrite !list_lookup_fmap, Ha, Hx in Hl. simpl in Hl. by simplify_eq.
Qed.

(** X1.  The first loop only reads the free store and collects one tensor
    per handle, in the order of the handles: the i-th tensor handed to the
    wrapped loader is the one at the address of the i-th handle, so a handle
    that occurs twice contributes its tensor twice. *)
Theorem inputs_read_in_order ts (h h' : gmap N Tensor) cpp_inputs :
  copy_inputs ts [] h = (Ret cpp_inputs, h') →
  h' = h ∧
  length cpp_inputs = length ts ∧
  ∀ i t, ts !! i = Some t → cpp_inputs !! i = h !! TensorPtr_ptr t.
Proof.
  rewrite copy_inputs_eq.
  destruct (read_inputs h ts) as [xs|] eqn:Hr; [|done].
  intros [= <- <-]. apply mapM_Some in Hr. split_and!; [done| |].
  - symmetry. by eapply Forall2_length.
  - intros i t Ht.
    destruct (Forall2_lookup_l _ _ _ _ _ Hr Ht) as (x & Hx & Hl).
    rewrite Hx. symmetry. exact Hl.
Qed.

(** X2.  A returning execution call adds to the free store exactly the
    objects of its output handles: the addresses in use afterwards are
    those in use before together with the returned ones, one new object per
    output. *)
Theorem returning_call_allocates_its_outputs (e : entry) (s s' : state) outs :
  invoke e s = (Ret outs, s') →
  dom (heap s') = dom (heap s) ∪ list_to_set (OwnedTensor_ptr <$> outs) ∧
  size (heap s') = size (heap s) + length outs.
Proof.
  intros Hc. apply invoke_returns in Hc as (cpp & outputs & l' & _ & _ & -> & ->).
  simpl. split.
  - rewrite place_dom. f_equal. rewrite <-list_fmap_compose.
    f_equal. symmetry. etrans; [|apply list_fmap_id].
    by apply list_fmap_ext.
  - by rewrite place_size, length_fmap, place_length.
Qed.

(** X3.  The handles a call returns can be passed back as inputs: read
    through them, the free store after the call gives the tensors the
    wrapped loader returned, in order, so the first loop of a following call
    finds every one of them. *)
Theorem outputs_feed_back (e : entry) (s : state) cpp_inputs outputs l' :
  read_inputs (heap s) (inputs s) = Some cpp_inputs →
  delegate e cpp_inputs (loader s) = (Ret outputs, l') →
  ∃ outs s',
    invoke e s = (Ret outs, s') ∧
    copy_inputs (borrow <$> outs) [] (heap s') = (Ret outputs, heap s').
Proof.
  intros Hin Hd. rewrite invoke_eq, Hin, Hd. eexists _, _. split; [done|].
  simpl. rewrite copy_inputs_eq.
  assert (read_inputs (place outputs (heap s)).2
            (borrow <$> (own <$> (place outputs (heap s)).1)) = Some outputs)
    as ->; [|done].
  apply mapM_Some. rewrite <-list_fmap_compose.
  apply Forall2_fmap_l. apply place_read.
Qed.

(** X5.  [loader_new] hands the constructor the device index it was given:
    the conversion to [c10::DeviceIndex] keeps every [int8_t] value, the
    negative ones included, and the call is the call of the constructor on
    the five arguments. *)
Theorem loader_new_passes_device_index path name single num dev :
  int8_t dev →
  static_cast_DeviceIndex dev = dev ∧
  loader_new path name single num dev
  = AOTIModelPackageLoader_new path name single num dev.
Proof.
  intros Hd. pose proof (static_cast_DeviceIndex_int8 dev Hd) as Hc.
  split; [done|]. unfold loader_new, std_string. by rewrite Hc.
Qed.

(** X6.  With no input handle the wrapped loader is called on the empty
    vector, whatever the free store holds; when it returns no tensor, the
    call returns no handle and the free store is as before. *)
Theorem no_inputs_no_outputs (e : entry) (s : state) l' :
  inputs s = [] →
  delegate e [] (loader s) = (Ret [], l') →
  invoke e s = (Ret [], set_loader l' s).
Proof.
  intros Hi Hd. rewrite invoke_eq, Hi. simpl. rewrite Hd. simpl.
  by destruct s.
Qed.

(** X7.  When [loader_get_call_spec] or [loader_get_constant_fqns] returns,
    it returns the strings the wrapped loader returned, as many and in the
    same order, and the loader is as the wrapped call left it. *)
Theorem string_vectors_returned_as_given (l l' : AOTIModelPackageLoader) r :
  (loader_get_call_spec l = (Ret r, l') → get_call_spec l = (Ret r, l')) ∧
  (loader_get_constant_fqns l = (Ret r, l') → get_constant_fqns l = (Ret r, l')).
Proof.
  split.
  - unfold loader_get_call_spec, bind, ret.
    destruct (get_call_spec l) as [[specs|x|] l1]; simpl; try done.
    rewrite push_strings_eq. by intros [= <- <-].
  - unfold loader_get_constant_fqns, bind, ret.
    destruct (get_constant_fqns l) as [[fqns|x|] l1]; simpl; try done.
    rewrite push_strings_eq. by intros [= <- <-].
Qed.

(** X8.  When [loader_get_metadata] returns, its entries are the pairs of
    the map the wrapped loader returned, one entry per pair in iteration
    order, so they denote the same mapping; the same holds of
    [loader_load_metadata_from_package]. *)
Theorem metadata_entries_are_the_map :
  (∀ (l l' : AOTIModelPackageLoader) entries,
     loader_get_metadata l = (Ret entries, l') →
     ∃ metadata,
       get_metadata l = (Ret metadata, l') ∧
       entry_pair <$> entries = metadata ∧
       entries_map entries = list_to_map metadata) ∧
  (∀ path name (w w' : World) entries,
     loader_load_metadata_from_package path name w = (Ret entries, w') →
     ∃ metadata,
       load_metadata_from_package path name w = (Ret metadata, w') ∧
       entry_pair <$> entries = metadata ∧
       entries_map entries = list_to_map metadata).
Proof.
  assert (∀ metadata : list (string * string),
            entry_pair <$> push_entries metadata [] = metadata) as Hpairs.
  { intros metadata. rewrite push_entries_eq. simpl.
    rewrite <-list_fmap_compose. etrans; [|apply list_fmap_id].
    apply list_fmap_ext. by intros i [k v] _. }
  split.
  - intros l l' entries. unfold loader_get_metadata, bind, ret.
    destruct (get_metadata l) as [[metadata|x|] l1]; simpl; try done.
    intros [= <- <-]. exists metadata. split_and!; [done|apply Hpairs|].
    apply entries_map_push.
  - intros path name w w' entries.
    unfold loader_load_metadata_from_package, bind, ret, std_string.
    destruct (load_metadata_from_package path name w) as [[metadata|x|] w1];
      simpl; try done.
    intros [= <- <-]. exists metadata. split_and!; [done|apply Hpairs|].
    apply entries_map_push.
Qed.

End further.

Section further_examples.
Import Reference Example.

Lemma int8_t_minus_1 : int8_t (-1).
Proof. unfold int8_t. lia. Qed.

Lemma inputs_read_in_order_witness :
  store = store ∧
  length [5; 7; 5]%Z = length repeated ∧
  ∀ i t, repeated !! i = Some t → [5; 7; 5]%Z !! i = store !! TensorPtr_ptr t.
Proof.
  apply (@inputs_read_in_order (torch Z) repeated store store [5; 7; 5]%Z).
  vm_compute. reflexivity.
Defined.

Lemma returning_call_allocates_its_outputs_witness :
  dom (heap first_call.2) = dom store ∪ list_to_set (OwnedTensor_ptr <$> first_outs) ∧
  size (heap first_call.2) = size store + length first_outs.
Proof.
  apply (@returning_call_allocates_its_outputs (torch Z) Run
           (start (ready forward)) first_call.2 first_outs).
  reflexivity.
Defined.

Lemma outputs_feed_back_witness :
  ∃ outs s',
    @invoke (torch Z) Run (start (ready forward)) = (Ret outs, s') ∧
    @copy_inputs (torch Z) (borrow <$> outs) [] (heap s')
      = (Ret [14; 10]%Z, heap s').
Proof.
  apply (@outputs_feed_back (torch Z) Run (start (ready forward)) [5; 7]%Z
           [14; 10]%Z (dispatch (ready forward))).
  - vm_compute. reflexivity.
  - reflexivity.
Defined.

Lemma loader_new_passes_device_index_witness :
  static_cast_DeviceIndex (-1) = (-1)%Z ∧
  @loader_new (torch Z) "resnet.pt2" "forward" true 1 (-1)
  = open "resnet.pt2" "forward" true 1 (-1).
Proof.
  apply (@loader_new_passes_device_index (torch Z)). exact int8_t_minus_1.
Defined.

Lemma no_inputs_no_outputs_witness :
  @invoke (torch Z) Run idle
  = (Ret [], @set_loader (torch Z) (dispatch (ready forward)) idle).
Proof.
  apply (@no_inputs_no_outputs (torch Z) Run idle (dispatch (ready forward)));
    reflexivity.
Defined.

Lemma string_vectors_returned_as_given_witness :
  @get_call_spec (torch Z) (ready forward)
    = (Ret ["input_0"; "output_0"], ready forward) ∧
  @get_constant_fqns (torch Z) (ready forward)
    = (Ret ["fc.weight"; "fc.bias"], ready forward).
Proof.
  split.
  - apply (proj1 (@string_vectors_returned_as_given (torch Z) (ready forward)
                    (ready forward) ["input_0"; "output_0"])).
    reflexivity.
  - apply (proj2 (@string_vectors_returned_as_given (torch Z) (ready forward)
                    (ready forward) ["fc.weight"; "fc.bias"])).
    reflexivity.
Defined.

Lemma metadata_entries_are_the_map_witness :
  (∃ metadata,
     @get_metadata (torch Z) (ready forward) = (Ret metadata, ready forward) ∧
     entry_pair <$> [{| key := "AOTI_DEVICE_KEY"; value := "cpu" |};
                     {| key := "version"; value := "1" |}] = metadata ∧
     entries_map [{| key := "AOTI_DEVICE_KEY"; value := "cpu" |};
                  {| key := "version"; value := "1" |}] = list_to_map metadata) ∧
  (∃ metadata,
     @load_metadata_from_package (torch Z) "resnet.pt2" "rejecting" world
       = (Ret metadata, world) ∧
     entry_pair <$> [{| key := "AOTI_DEVICE_KEY"; value := "cpu" |}] = metadata ∧
     entries_map [{| key := "AOTI_DEVICE_KEY"; value := "cpu" |}]
       = list_to_map metadata).
Proof.
  split.
  - apply (proj1 (@metadata_entries_are_the_map (torch Z)) (ready forward)).
    reflexivity.
  - apply (proj2 (@metadata_entries_are_the_map (torch Z))
             "resnet.pt2" "rejecting" world).
    vm_compute. reflexivity.
Defined.

End further_examples.
